(** * Trust Region Policy Optimization: [garage/torch/algos/trpo.py]

    A shallow embedding of the class [TRPO(VPG)] and the properties of its
    three methods: the constructor, the surrogate objective and the
    optimisation step.

    The class is glue between collaborators that live outside the file: the
    base trainer [VPG], the policy, the [ConjugateGradientOptimizer] and the
    tensor library.  The methods of the base trainer, the policy and the
    optimizer are taken as parameters of the development (any behaviour,
    including raising and mutating the heap); the tensor arithmetic the
    objective performs itself ([-], [exp], [*]) is given a reference model in
    [Module Torch]. *)

From Stdlib Require Import Reals Lra PrimFloat ZArith.
From stdpp Require Import base gmap strings list.

Set Warnings "-register-all,-inexact-float".

(* ===================================================================== *)
(** * Part I: definitions                                                 *)
(* ===================================================================== *)

(** ** Python values, exceptions and the binding of call arguments *)

Module Py.

(** The values that flow through the constructor.  [PyFloat] carries the
    binary64 number a Python float literal denotes; [PyRef] is a reference to
    an object built elsewhere (environment spec, policy, baseline); a class
    object is identified by its name. *)
Inductive pyval : Type :=
| PyNone
| PyBool (b : bool)
| PyInt (z : Z)
| PyFloat (f : float)
| PyStr (s : string)
| PyRef (a : positive)
| PyClass (name : string)
| PyTuple (items : list pyval)
| PyDict (d : gmap string pyval).

#[global] Instance pyval_inhabited : Inhabited pyval := populate PyNone.

(** An exception: its class and its message. *)
Record exn : Type := Exn { exn_type : string; exn_msg : string }.

Inductive result (A : Type) : Type :=
| Ok (a : A)
| Raise (e : exn).
Arguments Ok {A} a.
Arguments Raise {A} e.

Definition TypeError (msg : string) : exn := Exn "TypeError" msg.

(** A [def] header: the parameters in order, each with its default if it
    has one ([self] is bound by the method call and left out). *)
Definition signature : Type := list (string * option pyval).

Definition names (sig : signature) : list string := sig.*1.

(** Arguments given by position fill the parameters from the left. *)
Definition positional (sig : signature) (args : list pyval) : gmap string pyval :=
  list_to_map (zip (names sig) args).

Definition defaults (sig : signature) : gmap string pyval :=
  list_to_map (omap (λ p : string * option pyval, (p.1,.) <$> p.2) sig).

(** What the caller gave explicitly, by position or by keyword. *)
Definition given (sig : signature) (args : list pyval) (kwargs : gmap string pyval)
  : gmap string pyval :=
  positional sig args ∪ kwargs.

(** Python's argument binding for a function with neither [*args] nor
    [**kwargs]: every failure is a [TypeError]; on success every parameter
    name is bound, to the given value or else to its default.  Keywords are
    examined before the count of positional arguments and before missing
    arguments, as the interpreter does; the message is cut down to its kind
    (the interpreter adds the names of the function and of the argument). *)
Definition bind_args (sig : signature) (args : list pyval) (kwargs : gmap string pyval)
  : result (gmap string pyval) :=
  if decide (dom kwargs ⊆ list_to_set (names sig)) then
    if decide (dom kwargs ∩ dom (positional sig args) = (∅ : gset string)) then
      if decide (length args ≤ length sig) then
        let locals := given sig args kwargs ∪ defaults sig in
        if decide (list_to_set (names sig) ⊆ dom locals) then Ok locals
        else Raise (TypeError "missing required positional argument")
      else Raise (TypeError "too many positional arguments")
    else Raise (TypeError "got multiple values for argument")
  else Raise (TypeError "got an unexpected keyword argument").

End Py.
Export Py.

(** ** The interpreter monad

    A computation reads the autograd mode (is gradient tracking enabled?),
    threads the heap (policy parameters, optimizer state, object
    attributes) and either returns or raises.  The heap reached when an
    exception is raised is kept, as in Python. *)

Definition M (heap A : Type) : Type := bool → heap → result A * heap.

Definition ret {heap A} (a : A) : M heap A := λ _ h, (Ok a, h).

Definition bind {heap A B} (m : M heap A) (k : A → M heap B) : M heap B :=
  λ g h, match m g h with
         | (Ok a, h') => k a g h'
         | (Raise e, h') => (Raise e, h')
         end.

Definition lift {heap A} (r : result A) : M heap A := λ _ h, (r, h).

(** [with torch.no_grad(): body]: the body runs with tracking disabled; the
    mode of the caller is back in force afterwards, whether the body returns
    or raises, and the exception of the body is not suppressed. *)
Definition no_grad {heap A} (body : M heap A) : M heap A := λ _ h, body false h.

Notation "x <- m ;; k" := (bind m (λ x, k))
  (at level 100, m at next level, right associativity).

(** ** The tensor collaborator

    Reference model of the tensor arithmetic the objective performs.  A
    tensor is one-dimensional (a batch flattened to one axis).  Its elements
    are extended reals with the special values of IEEE 754 arithmetic:
    rounding and overflow of finite results are abstracted away, the infinities
    and NaN and the way they combine are kept.  Besides its data a tensor
    carries the set of autograd leaves (trainable parameters) its history
    reaches: it requires gradient exactly when that set is not empty. *)

Module Torch.

Inductive scalar : Type :=
| Fin (x : R)
| PInf
| NInf
| NaN.

Definition is_finite (a : scalar) : bool :=
  match a with Fin _ => true | _ => false end.

(** [a - b]; the difference of two infinities of the same sign is NaN. *)
Definition ssub (a b : scalar) : scalar :=
  match a, b with
  | NaN, _ | _, NaN => NaN
  | Fin x, Fin y => Fin (x - y)
  | Fin _, PInf => NInf
  | Fin _, NInf => PInf
  | PInf, Fin _ => PInf
  | NInf, Fin _ => NInf
  | PInf, NInf => PInf
  | NInf, PInf => NInf
  | PInf, PInf => NaN
  | NInf, NInf => NaN
  end.

Definition sexp (a : scalar) : scalar :=
  match a with
  | Fin x => Fin (exp x)
  | PInf => PInf
  | NInf => Fin 0
  | NaN => NaN
  end.

(** An infinity of the given sign times a finite number; zero times infinity
    is NaN. *)
Definition inf_mul (positive : bool) (x : R) : scalar :=
  match total_order_T 0 x with
  | inleft (left _) => if positive then PInf else NInf
  | inleft (right _) => NaN
  | inright _ => if positive then NInf else PInf
  end.

Definition smul (a b : scalar) : scalar :=
  match a, b with
  | NaN, _ | _, NaN => NaN
  | Fin x, Fin y => Fin (x * y)
  | PInf, Fin y | Fin y, PInf => inf_mul true y
  | NInf, Fin y | Fin y, NInf => inf_mul false y
  | PInf, PInf | NInf, NInf => PInf
  | PInf, NInf | NInf, PInf => NInf
  end.

(** Elementwise application with broadcasting: equal sizes pair up, a tensor
    of size one is stretched, any other pair of sizes is refused. *)
Definition broadcast (f : scalar → scalar → scalar) (a b : list scalar)
  : option (list scalar) :=
  if decide (length a = length b) then Some (zip_with f a b)
  else match a, b with
       | [x], _ => Some (f x <$> b)
       | _, [y] => Some ((λ x, f x y) <$> a)
       | _, _ => None
       end.

Record tensor : Type := Tensor { data : list scalar; tracked : gset positive }.

Definition shape_error : exn :=
  Exn "RuntimeError" "The size of tensor a must match the size of tensor b".

(** The result of an operation is attached to the leaves of its operands
    when tracking is enabled, and to none when it is disabled. *)
Definition history (grad : bool) (leaves : gset positive) : gset positive :=
  if grad then leaves else ∅.

Definition binop (f : scalar → scalar → scalar) (grad : bool) (a b : tensor)
  : result tensor :=
  match broadcast f (data a) (data b) with
  | Some d => Ok (Tensor d (history grad (tracked a ∪ tracked b)))
  | None => Raise shape_error
  end.

Definition sub : bool → tensor → tensor → result tensor := binop ssub.
Definition mul : bool → tensor → tensor → result tensor := binop smul.
Definition exp (grad : bool) (a : tensor) : result tensor :=
  Ok (Tensor (sexp <$> data a) (history grad (tracked a))).

End Torch.

Abbreviation tensor := Torch.tensor.

(** The tensor operations as computations: they read the autograd mode and
    leave the heap alone. *)
Definition tensor_sub {heap} (a b : tensor) : M heap tensor :=
  λ g h, (Torch.sub g a b, h).
Definition tensor_exp {heap} (a : tensor) : M heap tensor :=
  λ g h, (Torch.exp g a, h).
Definition tensor_mul {heap} (a b : tensor) : M heap tensor :=
  λ g h, (Torch.mul g a b, h).

(** ** The class *)

(** The attributes of a trainer the methods below read; the base
    constructor sets them. *)
Record trpo (policy_t optimizer_t : Type) : Type := Trainer {
  policy : policy_t;
  _old_policy : policy_t;
  _optimizer : optimizer_t
}.
Arguments Trainer {policy_t optimizer_t}.
Arguments policy {policy_t optimizer_t}.
Arguments _old_policy {policy_t optimizer_t}.
Arguments _optimizer {policy_t optimizer_t}.

(** The header of [TRPO.__init__]. *)
Definition init_signature : signature :=
  [ ("env_spec", None);
    ("policy", None);
    ("baseline", None);
    ("max_path_length", Some (PyInt 100));
    ("num_train_per_epoch", Some (PyInt 1));
    ("discount", Some (PyFloat 0.99%float));
    ("gae_lambda", Some (PyFloat 0.98%float));
    ("center_adv", Some (PyBool true));
    ("positive_adv", Some (PyBool false));
    ("policy_ent_coeff", Some (PyFloat 0.0%float));
    ("max_kl_step", Some (PyFloat 0.01%float));
    ("use_softplus_entropy", Some (PyBool false));
    ("stop_entropy_gradient", Some (PyBool false));
    ("entropy_method", Some (PyStr "no_entropy")) ].

(** The optimizer descriptor the constructor builds: the class and its
    keyword arguments. *)
Definition optimizer_descriptor (max_kl_step : pyval) : pyval :=
  PyTuple [ PyClass "ConjugateGradientOptimizer";
            PyDict {[ "max_constraint_value" := max_kl_step ]} ].

(** The keyword arguments of the call [super().__init__(...)], from the
    local variables of the constructor. *)
Definition super_kwargs (locals : gmap string pyval) : gmap string pyval :=
  let var (x : string) : pyval := locals !!! x in
  let optimizer := optimizer_descriptor (var "max_kl_step") in
  list_to_map
    [ ("env_spec", var "env_spec");
      ("policy", var "policy");
      ("baseline", var "baseline");
      ("optimizer", optimizer);
      ("max_path_length", var "max_path_length");
      ("num_train_per_epoch", var "num_train_per_epoch");
      ("discount", var "discount");
      ("gae_lambda", var "gae_lambda");
      ("center_adv", var "center_adv");
      ("positive_adv", var "positive_adv");
      ("policy_ent_coeff", var "policy_ent_coeff");
      ("use_softplus_entropy", var "use_softplus_entropy");
      ("stop_entropy_gradient", var "stop_entropy_gradient");
      ("entropy_method", var "entropy_method") ].

Section TRPO.

Context {heap policy_t optimizer_t paths_t : Type}.

Abbreviation self_t := (trpo policy_t optimizer_t).

(** *** Collaborators *)

(** [VPG.__init__(self, **kwargs)]. *)
Variable VPG__init__ : pyval → gmap string pyval → M heap pyval.
(** [policy.log_likelihood(obs, actions)]. *)
Variable log_likelihood : policy_t → tensor → tensor → M heap tensor.
(** [optimizer.step(f_loss=..., f_constraint=...)]. *)
Variable optimizer_step :
  optimizer_t → (unit → M heap tensor) → (unit → M heap tensor) → M heap pyval.
(** [VPG.compute_loss(itr, paths, valids, obs, actions, rewards, baselines)]. *)
Variable compute_loss :
  self_t → Z → paths_t → list Z → tensor → tensor → tensor → tensor → M heap tensor.
(** [VPG._compute_kl_constraint(obs)]. *)
Variable _compute_kl_constraint : self_t → tensor → M heap tensor.

(** *** Methods *)

Definition __init__ (self : pyval) (args : list pyval) (kwargs : gmap string pyval)
  : M heap pyval :=
  locals <- lift (bind_args init_signature args kwargs) ;;
  _ <- VPG__init__ self (super_kwargs locals) ;;
  ret PyNone.

Definition _compute_objective (self : self_t) (advantages : tensor)
  (valids : list Z) (obs actions rewards : tensor) : M heap tensor :=
  old_ll <- no_grad (log_likelihood (_old_policy self) obs actions) ;;
  new_ll <- log_likelihood (policy self) obs actions ;;
  diff <- tensor_sub new_ll old_ll ;;
  likelihood_ratio <- tensor_exp diff ;;
  surrogate <- tensor_mul likelihood_ratio advantages ;;
  ret surrogate.

Definition _optimize (self : self_t) (itr : Z) (paths : paths_t) (valids : list Z)
  (obs actions rewards baselines : tensor) : M heap pyval :=
  _ <- optimizer_step (_optimizer self)
         (λ _, compute_loss self itr paths valids obs actions rewards baselines)
         (λ _, _compute_kl_constraint self obs) ;;
  ret PyNone.

End TRPO.

(** The parameters the constructor hands on to the base constructor under
    their own names: all of them but [max_kl_step]. *)
Definition forwarded : list string :=
  [ "env_spec"; "policy"; "baseline"; "max_path_length"; "num_train_per_epoch";
    "discount"; "gae_lambda"; "center_adv"; "positive_adv"; "policy_ent_coeff";
    "use_softplus_entropy"; "stop_entropy_gradient"; "entropy_method" ].

(** The parameters without a default. *)
Definition required (sig : signature) : list string :=
  names (filter (λ p, p.2 = None) sig).

(** ** The surrogate in the words of the specification

    The importance-sampling ratio is the exponential of the difference of the
    new and the old log-likelihood; the surrogate is the elementwise product
    of the advantages with that ratio. *)

Definition likelihood_ratio_spec (new_ll old_ll : list Torch.scalar)
  : option (list Torch.scalar) :=
  match Torch.broadcast Torch.ssub new_ll old_ll with
  | Some difference => Some (Torch.sexp <$> difference)
  | None => None
  end.

Definition surrogate_spec (advantages new_ll old_ll : list Torch.scalar)
  : option (list Torch.scalar) :=
  match likelihood_ratio_spec new_ll old_ll with
  | Some ratio => Torch.broadcast Torch.smul advantages ratio
  | None => None
  end.

(** ** Sizes, signs and outcomes

    Vocabulary for the properties of the objective.  Two sizes can be
    combined when they are equal or one of them is one; the combined size
    follows [Torch.broadcast]. *)



(** Not negative (plus infinity included), and not positive. *)
Definition nonneg (a : Torch.scalar) : Prop :=
  match a with
  | Torch.Fin x => (0 <= x)%R
  | Torch.PInf => True
  | _ => False
  end.

Definition nonpos (a : Torch.scalar) : Prop :=
  match a with
  | Torch.Fin x => (x <= 0)%R
  | Torch.NInf => True
  | _ => False
  end.

(** Two outcomes agree on what the caller can observe without autograd: the
    same values, or the same exception. *)
Definition same_values (r1 r2 : result tensor) : Prop :=
  match r1, r2 with
  | Ok a, Ok b => Torch.data a = Torch.data b
  | Raise e1, Raise e2 => e1 = e2
  | _, _ => False
  end.

(** ** A small instance of the collaborators

    A tabular policy holds the log-likelihoods of the actions of one batch
    and returns them, attached to its parameter when tracking is enabled.
    The heap counts the parameter updates performed so far; the optimizer
    evaluates both closures and then records one update. *)

Module Toy.

Record policy : Type := Policy { table : tensor; leaf : positive }.

Definition log_likelihood (p : policy) (obs actions : tensor) : M nat tensor :=
  λ g h, (Ok (Torch.Tensor (Torch.data (table p)) (Torch.history g {[ leaf p ]})), h).

Definition step (_ : unit) (f_loss f_constraint : unit → M nat tensor) : M nat pyval :=
  _ <- f_loss () ;;
  _ <- f_constraint () ;;
  λ _ h, (Ok PyNone, S h).

Definition compute_loss (self : trpo policy unit) (itr : Z) (paths : unit)
  (valids : list Z) (obs actions rewards baselines : tensor) : M nat tensor :=
  ret rewards.

Definition _compute_kl_constraint (self : trpo policy unit) (obs : tensor)
  : M nat tensor :=
  ret obs.

(** A base constructor that accepts any keyword arguments. *)
Definition VPG__init__ (self : pyval) (kwargs : gmap string pyval) : M nat pyval :=
  ret PyNone.

Definition vec (xs : list Torch.scalar) : tensor := Torch.Tensor xs ∅.

(** A batch of two steps. *)
Definition obs : tensor := vec [Torch.Fin 0; Torch.Fin 1].
Definition actions : tensor := vec [Torch.Fin 1; Torch.Fin 0].
Definition rewards : tensor := vec [Torch.Fin 1; Torch.Fin 1].
Definition advantages : tensor := vec [Torch.Fin 2; Torch.Fin 3].

(** The new policy, the policy it was copied from, and a trainer right
    after the copy, when both hold the same parameters. *)
Definition current : policy := Policy (vec [Torch.Fin (-1); Torch.Fin (-2)]) 1.
Definition previous : policy := Policy (vec [Torch.Fin (-1); Torch.Fin (-3)]) 2.
Definition trainer : trpo policy unit := Trainer current previous tt.
Definition fresh_trainer : trpo policy unit := Trainer current current tt.

(** A policy under which the action of a one-step batch has probability
    zero, and a trainer whose old and new policy are that policy. *)
Definition impossible : policy := Policy (vec [Torch.NInf]) 1.
Definition stuck_trainer : trpo policy unit := Trainer impossible impossible tt.

(** A call of the constructor that gives the three required arguments by
    position and [max_kl_step] by keyword. *)
Definition call_args : list pyval := [PyRef 1; PyRef 2; PyRef 3].
Definition call_kwargs : gmap string pyval :=
  {[ "max_kl_step" := PyFloat 0.05%float ]}.

(** The local variables of the constructor in that call, and in the call
    that gives the required arguments only. *)
Definition call_locals : gmap string pyval :=
  given init_signature call_args call_kwargs ∪ defaults init_signature.
Definition plain_locals : gmap string pyval :=
  given init_signature call_args ∅ ∪ defaults init_signature.

(** A policy whose log-likelihood of the second step is NaN, and a trainer
    that has just moved to it. *)
Definition broken : policy := Policy (vec [Torch.Fin (-1); Torch.NaN]) 1.
Definition broken_trainer : trpo policy unit := Trainer broken previous tt.

(** An optimizer that records an update without calling its closures, and a
    loss computation that always fails. *)
Definition idle_step (_ : unit) (f_loss f_constraint : unit → M nat tensor)
  : M nat pyval :=
  λ _ h, (Ok PyNone, S h).

Definition failing_loss (self : trpo policy unit) (itr : Z) (paths : unit)
  (valids : list Z) (obs actions rewards baselines : tensor) : M nat tensor :=
  λ _ h, (Raise (Exn "ValueError" "loss"), h).

End Toy.

(** ** Proof automation *)

(** Closes a decidable closed [P] by evaluating the decision. *)
Ltac prove_by_deciding :=
  apply (bool_decide_unpack _); vm_compute; exact I.

(** Closes [¬ P] for a decidable closed [P] by evaluating the decision. *)
Ltac refute_by_deciding :=
  lazymatch goal with
  | |- ¬ ?P => apply (bool_decide_eq_false_1 P); vm_compute; reflexivity
  | |- ?P → False => apply (bool_decide_eq_false_1 P); vm_compute; reflexivity
  end.

(* ===================================================================== *)
(** * Part II: properties                                                 *)
(* ===================================================================== *)

(** ** Running a sequence of calls *)

Section MonadFacts.

Context {heap A B : Type}.
Implicit Types (m : M heap A) (k : A → M heap B).

Lemma bind_Ok m k g h a h1 :
  m g h = (Ok a, h1) → (x <- m ;; k x) g h = k a g h1.
Proof. intros Hm. unfold bind. by rewrite Hm. Qed.

Lemma bind_Raise m k g h e h1 :
  m g h = (Raise e, h1) → (x <- m ;; k x) g h = (Raise e, h1).
Proof. intros Hm. unfold bind. by rewrite Hm. Qed.

Lemma bind_Ok_inv m k g h b h2 :
  (x <- m ;; k x) g h = (Ok b, h2) →
  ∃ a h1, m g h = (Ok a, h1) ∧ k a g h1 = (Ok b, h2).
Proof.
  unfold bind. destruct (m g h) as [[a|e] h1]; [eauto | discriminate].
Qed.

Lemma bind_Raise_inv m k g h e h2 :
  (x <- m ;; k x) g h = (Raise e, h2) →
  m g h = (Raise e, h2)
  ∨ ∃ a h1, m g h = (Ok a, h1) ∧ k a g h1 = (Raise e, h2).
Proof.
  unfold bind. destruct (m g h) as [[a|e'] h1].
  - intros Hk. right. eauto.
  - intros [= -> ->]. by left.
Qed.

End MonadFacts.

(** ** Binding of call arguments *)

Section Binding.

Variable sig : signature.
Implicit Types (args : list pyval) (kwargs locals : gmap string pyval).

Lemma bind_args_Ok args kwargs locals :
  bind_args sig args kwargs = Ok locals →
  locals = given sig args kwargs ∪ defaults sig
  ∧ dom kwargs ⊆ list_to_set (names sig)
  ∧ list_to_set (names sig) ⊆ dom locals.
Proof.
  unfold bind_args. repeat case_decide; try discriminate.
  intros [= <-]. auto.
Qed.

Lemma bind_args_intro args kwargs :
  dom kwargs ⊆ list_to_set (names sig) →
  dom kwargs ∩ dom (positional sig args) = ∅ →
  length args ≤ length sig →
  list_to_set (names sig) ⊆ dom (given sig args kwargs ∪ defaults sig) →
  bind_args sig args kwargs = Ok (given sig args kwargs ∪ defaults sig).
Proof. intros. unfold bind_args. by rewrite !decide_True. Qed.

Lemma bind_args_Raise args kwargs e :
  bind_args sig args kwargs = Raise e → exn_type e = "TypeError".
Proof.
  unfold bind_args. repeat case_decide; try discriminate; by intros [= <-].
Qed.

(** A value the caller gave reaches the local variable unchanged. *)
Lemma bind_args_given args kwargs locals n v :
  bind_args sig args kwargs = Ok locals →
  given sig args kwargs !! n = Some v → locals !! n = Some v.
Proof.
  intros (-> & _ & _)%bind_args_Ok Hn. by apply lookup_union_Some_l.
Qed.

(** A parameter the caller left out takes its default. *)
Lemma bind_args_default args kwargs locals n :
  bind_args sig args kwargs = Ok locals →
  given sig args kwargs !! n = None → locals !! n = defaults sig !! n.
Proof.
  intros (-> & _ & _)%bind_args_Ok Hn. by apply lookup_union_r.
Qed.

Lemma bind_args_bound args kwargs locals n :
  bind_args sig args kwargs = Ok locals →
  n ∈ names sig → is_Some (locals !! n).
Proof.
  intros (_ & _ & Hall)%bind_args_Ok Hn. apply elem_of_dom, Hall.
  by apply elem_of_list_to_set.
Qed.

Lemma bind_args_keyword args kwargs locals n :
  bind_args sig args kwargs = Ok locals →
  n ∈ dom kwargs → n ∈ names sig.
Proof.
  intros (_ & Hkw & _)%bind_args_Ok Hn. apply Hkw in Hn.
  by apply elem_of_list_to_set in Hn.
Qed.

End Binding.

(** ** The constructor *)

Section Constructor.

Context {heap : Type}.
Variable VPG__init__ : pyval → gmap string pyval → M heap pyval.
Implicit Types (self : pyval) (args : list pyval).
Implicit Types (kwargs locals : gmap string pyval).

(** After a successful binding the constructor is the call of the base
    constructor with [super_kwargs]. *)
Lemma init_bound self args kwargs locals g h :
  bind_args init_signature args kwargs = Ok locals →
  __init__ VPG__init__ self args kwargs g h
  = (_ <- VPG__init__ self (super_kwargs locals) ;; ret PyNone) g h.
Proof.
  intros Hb. unfold __init__. erewrite bind_Ok; [done|]. unfold lift. by rewrite Hb.
Qed.

Lemma init_unbound self args kwargs e g h :
  bind_args init_signature args kwargs = Raise e →
  __init__ VPG__init__ self args kwargs g h = (Raise e, h).
Proof.
  intros Hb. unfold __init__. erewrite bind_Raise; [done|]. unfold lift. by rewrite Hb.
Qed.

Lemma super_kwargs_optimizer locals v :
  locals !! "max_kl_step" = Some v →
  super_kwargs locals !! "optimizer" = Some (optimizer_descriptor v).
Proof.
  intros Hv. unfold super_kwargs. by rewrite (lookup_total_correct _ _ _ Hv).
Qed.

(** C3: whatever value the caller gives for [max_kl_step], the constructor
    calls the base constructor with, as [optimizer], the pair of the class
    [ConjugateGradientOptimizer] and the keyword arguments
    [{'max_constraint_value': max_kl_step}] holding exactly that value. *)
Theorem init_configures_optimizer self args kwargs locals max_kl_step :
  bind_args init_signature args kwargs = Ok locals →
  given init_signature args kwargs !! "max_kl_step" = Some max_kl_step →
  super_kwargs locals !! "optimizer"
  = Some (PyTuple [ PyClass "ConjugateGradientOptimizer";
                    PyDict {[ "max_constraint_value" := max_kl_step ]} ])
  ∧ ∀ g h, __init__ VPG__init__ self args kwargs g h
           = (_ <- VPG__init__ self (super_kwargs locals) ;; ret PyNone) g h.
Proof.
  intros Hb Hgiven. split.
  - apply super_kwargs_optimizer. by eapply bind_args_given.
  - intros g h. by apply init_bound.
Qed.

Lemma forwarded_are_parameters : forwarded ⊆ names init_signature.
Proof. apply (bool_decide_unpack _). vm_compute. exact I. Qed.

(** C9: a call that gives none of the optional arguments binds them to
    [max_path_length=100], [num_train_per_epoch=1], [discount=0.99],
    [gae_lambda=0.98], [center_adv=True], [positive_adv=False],
    [policy_ent_coeff=0.0], [max_kl_step=0.01], [use_softplus_entropy=False],
    [stop_entropy_gradient=False] and [entropy_method='no_entropy']. *)
Theorem init_defaults args kwargs locals :
  bind_args init_signature args kwargs = Ok locals →
  dom (given init_signature args kwargs)
    ⊆ (list_to_set (required init_signature) : gset string) →
  Forall (λ '(n, d), locals !! n = Some d)
    [ ("max_path_length", PyInt 100);
      ("num_train_per_epoch", PyInt 1);
      ("discount", PyFloat 0.99%float);
      ("gae_lambda", PyFloat 0.98%float);
      ("center_adv", PyBool true);
      ("positive_adv", PyBool false);
      ("policy_ent_coeff", PyFloat 0.0%float);
      ("max_kl_step", PyFloat 0.01%float);
      ("use_softplus_entropy", PyBool false);
      ("stop_entropy_gradient", PyBool false);
      ("entropy_method", PyStr "no_entropy") ].
Proof.
  intros Hb Hreq.
  assert (∀ n, n ∉ required init_signature →
               locals !! n = defaults init_signature !! n) as Hdef.
  { intros n Hn. eapply bind_args_default; [done|].
    apply not_elem_of_dom. intros Hg%Hreq. by apply elem_of_list_to_set in Hg. }
  repeat (apply Forall_cons_2;
          [cbn; rewrite Hdef; [reflexivity | refute_by_deciding] |]).
  apply Forall_nil_2.
Qed.

(** C10: every call either fails to bind, with a [TypeError] and before the
    base constructor is reached, or calls the base constructor with exactly
    the thirteen forwarded parameters under their own names, each holding
    the value bound to it (the caller's, when the caller gave one), plus
    [optimizer], which is the descriptor built from [max_kl_step]; the
    keyword [optimizer] itself is never accepted from the caller. *)
Theorem init_forwards self args kwargs g h :
  match bind_args init_signature args kwargs with
  | Ok locals =>
      __init__ VPG__init__ self args kwargs g h
      = (_ <- VPG__init__ self (super_kwargs locals) ;; ret PyNone) g h
      ∧ dom (super_kwargs locals) = list_to_set ("optimizer" :: forwarded)
      ∧ (∀ n, n ∈ forwarded →
              is_Some (locals !! n) ∧ super_kwargs locals !! n = locals !! n)
      ∧ (∀ n v, given init_signature args kwargs !! n = Some v →
                locals !! n = Some v)
      ∧ super_kwargs locals !! "optimizer"
        = Some (optimizer_descriptor (locals !!! "max_kl_step"))
      ∧ "optimizer" ∉ dom kwargs
  | Raise e =>
      exn_type e = "TypeError"
      ∧ __init__ VPG__init__ self args kwargs g h = (Raise e, h)
  end.
Proof.
  destruct (bind_args init_signature args kwargs) as [locals|e] eqn:Hb.
  - split_and!.
    + by apply init_bound.
    + unfold super_kwargs. by rewrite dom_list_to_map_L.
    + intros n Hn.
      assert (is_Some (locals !! n)) as [v Hv].
      { eapply bind_args_bound; [done|]. by apply forwarded_are_parameters. }
      split; [by rewrite Hv|]. rewrite Hv. revert v Hv.
      unfold forwarded in Hn. set_unfold.
      intros v <-%lookup_total_correct.
      destruct_or!; try done; subst n; reflexivity.
    + intros n v. by apply bind_args_given.
    + reflexivity.
    + intros Hin. eapply bind_args_keyword in Hin; [|done].
      revert Hin. refute_by_deciding.
  - split; [by eapply bind_args_Raise | by apply init_unbound].
Qed.

End Constructor.

(** ** Tensor arithmetic *)

Section TensorFacts.

Import Torch.
Implicit Types (a b : scalar) (u v : list scalar).

Lemma smul_comm a b : smul a b = smul b a.
Proof. destruct a, b; simpl; try reflexivity. f_equal. apply Rmult_comm. Qed.

Lemma smul_1_l a : smul (Fin 1) a = a.
Proof.
  destruct a as [y| | |]; simpl; try reflexivity.
  - f_equal. apply Rmult_1_l.
  - unfold inf_mul. destruct (total_order_T 0 1) as [[?|?]|?]; [done|lra..].
  - unfold inf_mul. destruct (total_order_T 0 1) as [[?|?]|?]; [done|lra..].
Qed.

Lemma ratio_of_equal_finite a :
  is_finite a → sexp (ssub a a) = Fin 1.
Proof.
  destruct a as [x| | |]; try done. intros _. simpl.
  by rewrite Rminus_diag, exp_0.
Qed.

Lemma broadcast_same_length f u v :
  length u = length v → broadcast f u v = Some (zip_with f u v).
Proof. intros Hlen. unfold broadcast. by rewrite decide_True. Qed.

Lemma broadcast_comm f u v :
  (∀ a b, f a b = f b a) → broadcast f u v = broadcast f v u.
Proof.
  intros Hf. unfold broadcast.
  destruct (decide (length u = length v)) as [Hlen|Hlen].
  - rewrite decide_True by done. f_equal.
    revert v Hlen. induction u as [|a u IH]; intros [|b v] ?; simplify_eq/=; [done|].
    rewrite Hf. f_equal. by apply IH.
  - rewrite decide_False by done.
    destruct u as [|a [|a' u]], v as [|b [|b' v]]; cbn [length] in Hlen;
      try done; lazy beta iota; f_equal; apply list_fmap_ext; intros; apply Hf.
Qed.

Lemma zip_with_ratio_one u :
  Forall (λ a, is_finite a) u →
  sexp <$> zip_with ssub u u = replicate (length u) (Fin 1).
Proof.
  induction 1 as [|a u Ha _ IH]; [done|]. simpl.
  f_equal; [by apply ratio_of_equal_finite | exact IH].
Qed.

Lemma zip_with_ones u :
  zip_with smul (replicate (length u) (Fin 1)) u = u.
Proof.
  induction u as [|a u IH]; [done|]. cbn [length replicate zip_with].
  f_equal; [apply smul_1_l | exact IH].
Qed.

End TensorFacts.

Section TensorOperations.

Import Torch.
Context {heap : Type}.
Implicit Types (a b d : tensor) (g : bool) (h : heap).

Lemma binop_Ok f g a b d :
  binop f g a b = Ok d →
  broadcast f (data a) (data b) = Some (data d)
  ∧ tracked d = history g (tracked a ∪ tracked b).
Proof.
  unfold binop. destruct (broadcast f (data a) (data b)); [|done].
  by intros [= <-].
Qed.

Lemma binop_Raise f g a b e :
  binop f g a b = Raise e →
  broadcast f (data a) (data b) = None ∧ e = shape_error.
Proof.
  unfold binop. destruct (broadcast f (data a) (data b)); [done|].
  by intros [= <-].
Qed.

Lemma tensor_sub_Ok a b g h d h' :
  tensor_sub a b g h = (Ok d, h') →
  h' = h
  ∧ broadcast ssub (data a) (data b) = Some (data d)
  ∧ tracked d = history g (tracked a ∪ tracked b).
Proof. intros [= Hd <-]. by apply binop_Ok in Hd as [??]. Qed.

Lemma tensor_mul_Ok a b g h d h' :
  tensor_mul a b g h = (Ok d, h') →
  h' = h
  ∧ broadcast smul (data a) (data b) = Some (data d)
  ∧ tracked d = history g (tracked a ∪ tracked b).
Proof. intros [= Hd <-]. by apply binop_Ok in Hd as [??]. Qed.

Lemma tensor_exp_Ok a g h d h' :
  tensor_exp a g h = (Ok d, h') →
  h' = h ∧ data d = sexp <$> data a ∧ tracked d = history g (tracked a).
Proof. by intros [= <- <-]. Qed.

End TensorOperations.

(** ** The surrogate objective and the optimisation step *)

Section Methods.

Import Torch.
Context {heap policy_t optimizer_t paths_t : Type}.

Variable log_likelihood : policy_t → tensor → tensor → M heap tensor.
Variable optimizer_step :
  optimizer_t → (unit → M heap tensor) → (unit → M heap tensor) → M heap pyval.
Variable compute_loss :
  trpo policy_t optimizer_t → Z → paths_t → list Z →
  tensor → tensor → tensor → tensor → M heap tensor.
Variable _compute_kl_constraint : trpo policy_t optimizer_t → tensor → M heap tensor.

Implicit Types (self : trpo policy_t optimizer_t) (valids : list Z).
Implicit Types (advantages obs actions rewards baselines : tensor).
Implicit Types (old_ll new_ll : tensor) (g : bool) (h : heap).

(** Once both policies have answered, what is left of the objective is
    tensor arithmetic in the heap the second call left. *)
Lemma compute_objective_run self advantages valids obs actions rewards
    g h old_ll h1 new_ll h2 :
  log_likelihood (_old_policy self) obs actions false h = (Ok old_ll, h1) →
  log_likelihood (policy self) obs actions g h1 = (Ok new_ll, h2) →
  _compute_objective log_likelihood self advantages valids obs actions rewards g h
  = (match Torch.sub g new_ll old_ll with
     | Ok diff =>
         match Torch.exp g diff with
         | Ok likelihood_ratio => Torch.mul g likelihood_ratio advantages
         | Raise e => Raise e
         end
     | Raise e => Raise e
     end, h2).
Proof.
  intros Hold Hnew. unfold _compute_objective.
  erewrite bind_Ok by (unfold no_grad; exact Hold).
  erewrite bind_Ok by exact Hnew.
  unfold bind, tensor_sub, tensor_exp, tensor_mul, ret.
  destruct (Torch.sub g new_ll old_ll) as [diff|e]; [|done].
  cbn [Torch.exp]. by destruct (Torch.mul _ _ _).
Qed.

(** C1: when both policies return their log-likelihoods, the objective is
    the elementwise product of the advantages with the exponential of the
    difference between the new and the old log-likelihood of the same
    observations and actions; sizes that cannot be combined make it raise. *)
Theorem compute_objective_is_surrogate self advantages valids obs actions rewards
    g h old_ll h1 new_ll h2 :
  log_likelihood (_old_policy self) obs actions false h = (Ok old_ll, h1) →
  log_likelihood (policy self) obs actions g h1 = (Ok new_ll, h2) →
  match surrogate_spec (data advantages) (data new_ll) (data old_ll) with
  | Some values =>
      ∃ surrogate,
        _compute_objective log_likelihood self advantages valids obs actions rewards g h
        = (Ok surrogate, h2)
        ∧ data surrogate = values
  | None =>
      _compute_objective log_likelihood self advantages valids obs actions rewards g h
      = (Raise shape_error, h2)
  end.
Proof.
  intros Hold Hnew.
  rewrite (compute_objective_run _ _ _ _ _ _ _ _ _ _ _ _ Hold Hnew).
  unfold surrogate_spec, likelihood_ratio_spec, Torch.sub, Torch.mul, binop.
  destruct (broadcast ssub (data new_ll) (data old_ll)) as [diff|]; [|done].
  cbn [Torch.exp data]. rewrite (broadcast_comm smul (data advantages)) by apply smul_comm.
  destruct (broadcast smul (sexp <$> diff) (data advantages)) as [values|]; [|done].
  by eexists.
Qed.

(** C2, amended: when the old and the new policy give the same, finite
    log-likelihood to every action, and the advantages have the size of the
    log-likelihoods, the likelihood ratio is 1 for every action and the
    objective returned has exactly the values of the advantages. *)
Theorem identical_likelihoods_give_advantages self advantages valids obs actions
    rewards g h old_ll h1 new_ll h2 :
  log_likelihood (_old_policy self) obs actions false h = (Ok old_ll, h1) →
  log_likelihood (policy self) obs actions g h1 = (Ok new_ll, h2) →
  data new_ll = data old_ll →
  Forall (λ x, is_finite x) (data new_ll) →
  length (data advantages) = length (data new_ll) →
  ∃ diff likelihood_ratio surrogate,
    tensor_sub new_ll old_ll g h2 = (Ok diff, h2)
    ∧ tensor_exp diff g h2 = (Ok likelihood_ratio, h2)
    ∧ data likelihood_ratio = replicate (length (data new_ll)) (Fin 1)
    ∧ _compute_objective log_likelihood self advantages valids obs actions rewards g h
      = (Ok surrogate, h2)
    ∧ data surrogate = data advantages.
Proof.
  intros Hold Hnew Hsame Hfinite Hsize.
  assert (broadcast ssub (data new_ll) (data old_ll)
          = Some (zip_with ssub (data new_ll) (data new_ll))) as Hdiff.
  { rewrite <- Hsame. by apply broadcast_same_length. }
  assert (sexp <$> zip_with ssub (data new_ll) (data new_ll)
          = replicate (length (data advantages)) (Fin 1)) as Hratio.
  { rewrite Hsize. by apply zip_with_ratio_one. }
  assert (broadcast smul (replicate (length (data advantages)) (Fin 1))
            (data advantages) = Some (data advantages)) as Hmul.
  { rewrite broadcast_same_length by apply length_replicate.
    by rewrite zip_with_ones. }
  rewrite (compute_objective_run _ _ _ _ _ _ _ _ _ _ _ _ Hold Hnew).
  unfold tensor_sub, tensor_exp, Torch.sub, Torch.mul, binop.
  rewrite Hdiff. cbn [Torch.exp data]. rewrite Hratio, Hmul.
  eexists _, _, _. split_and!; try reflexivity.
  cbn [data]. by rewrite Hratio, Hsize.
Qed.

(** C5: the objective is the same for two lists of validity lengths that
    are permutations of each other. *)
Theorem compute_objective_valids_order self advantages valids valids' obs actions
    rewards :
  valids ≡ₚ valids' →
  _compute_objective log_likelihood self advantages valids obs actions rewards
  = _compute_objective log_likelihood self advantages valids' obs actions rewards.
Proof. intros _. unfold _compute_objective. reflexivity. Qed.

(** C8: the objective depends on the advantages, the observations and the
    actions only: any two values of [valids] and of [rewards] give the same
    computation, hence the same result in every mode and heap. *)
Theorem compute_objective_ignores_valids_rewards self advantages obs actions
    valids valids' rewards rewards' g h :
  _compute_objective log_likelihood self advantages valids obs actions rewards g h
  = _compute_objective log_likelihood self advantages valids' obs actions rewards' g h.
Proof. unfold _compute_objective. reflexivity. Qed.

(** C6: with tracking enabled, the old policy is asked for its
    log-likelihood with tracking disabled and the new policy with tracking
    enabled; as a computation under disabled tracking yields a tensor
    attached to no parameter, the objective is attached to exactly the
    parameters the new log-likelihood and the advantages are attached to:
    gradient reaches the new policy and nothing flows through the old term. *)
Theorem compute_objective_gradient_flow self advantages valids obs actions rewards
    h surrogate h' :
  (∀ p o a h0 r h1, log_likelihood p o a false h0 = (Ok r, h1) → tracked r = ∅) →
  _compute_objective log_likelihood self advantages valids obs actions rewards true h
  = (Ok surrogate, h') →
  ∃ old_ll h1 new_ll,
    log_likelihood (_old_policy self) obs actions false h = (Ok old_ll, h1)
    ∧ tracked old_ll = ∅
    ∧ log_likelihood (policy self) obs actions true h1 = (Ok new_ll, h')
    ∧ tracked surrogate = tracked new_ll ∪ tracked advantages.
Proof.
  intros Hno_grad Hrun. unfold _compute_objective in Hrun.
  apply bind_Ok_inv in Hrun as (old_ll & h1 & Hold & Hrun).
  apply bind_Ok_inv in Hrun as (new_ll & h2 & Hnew & Hrun).
  apply bind_Ok_inv in Hrun as (diff & h3 & Hdiff & Hrun).
  apply bind_Ok_inv in Hrun as (ratio & h4 & Hratio & Hrun).
  apply bind_Ok_inv in Hrun as (s & h5 & Hmul & [= -> ->]).
  apply tensor_sub_Ok in Hdiff as (-> & _ & Hdiff).
  apply tensor_exp_Ok in Hratio as (-> & _ & Hratio).
  apply tensor_mul_Ok in Hmul as (-> & _ & Hmul).
  unfold no_grad in Hold. pose proof (Hno_grad _ _ _ _ _ _ Hold) as Hdetached.
  exists old_ll, h1, new_ll. split_and!; [done..|].
  rewrite Hmul, Hratio, Hdiff, Hdetached. unfold history.
  by rewrite (right_id_L ∅ (∪)).
Qed.

(** C4: the step is one call of the optimizer's [step], given a closure that
    evaluates [compute_loss] on the arguments of [_optimize] and a closure
    that evaluates [_compute_kl_constraint] on [obs]; the outcome and the
    heap of [_optimize] are those of that call, and it returns [None]. *)
Theorem optimize_delegates_to_step self itr paths valids obs actions rewards
    baselines g h :
  ∃ f_loss f_constraint : unit → M heap tensor,
    f_loss () = compute_loss self itr paths valids obs actions rewards baselines
    ∧ f_constraint () = _compute_kl_constraint self obs
    ∧ _optimize optimizer_step compute_loss _compute_kl_constraint
        self itr paths valids obs actions rewards baselines g h
      = match optimizer_step (_optimizer self) f_loss f_constraint g h with
        | (Ok _, h') => (Ok PyNone, h')
        | (Raise e, h') => (Raise e, h')
        end.
Proof.
  exists (λ _, compute_loss self itr paths valids obs actions rewards baselines),
         (λ _, _compute_kl_constraint self obs).
  split_and!; reflexivity.
Qed.

(** C7: neither method handles exceptions.  The objective raises [e] exactly
    when the first of its calls that raises (old log-likelihood, new
    log-likelihood, subtraction, exponential, product) raises [e], and then
    in the heap that call left; the step raises [e] exactly when the
    optimizer's [step] does. *)
Theorem methods_propagate_exceptions self advantages itr paths valids obs actions
    rewards baselines g h e h' :
  (_compute_objective log_likelihood self advantages valids obs actions rewards g h
   = (Raise e, h')
   ↔ no_grad (log_likelihood (_old_policy self) obs actions) g h = (Raise e, h')
     ∨ ∃ old_ll h1,
         no_grad (log_likelihood (_old_policy self) obs actions) g h = (Ok old_ll, h1)
         ∧ (log_likelihood (policy self) obs actions g h1 = (Raise e, h')
            ∨ ∃ new_ll h2,
                log_likelihood (policy self) obs actions g h1 = (Ok new_ll, h2)
                ∧ (tensor_sub new_ll old_ll g h2 = (Raise e, h')
                   ∨ ∃ diff h3,
                       tensor_sub new_ll old_ll g h2 = (Ok diff, h3)
                       ∧ (tensor_exp diff g h3 = (Raise e, h')
                          ∨ ∃ likelihood_ratio h4,
                              tensor_exp diff g h3 = (Ok likelihood_ratio, h4)
                              ∧ tensor_mul likelihood_ratio advantages g h4
                                = (Raise e, h')))))
  ∧ (_optimize optimizer_step compute_loss _compute_kl_constraint
       self itr paths valids obs actions rewards baselines g h
     = (Raise e, h')
     ↔ optimizer_step (_optimizer self)
         (λ _, compute_loss self itr paths valids obs actions rewards baselines)
         (λ _, _compute_kl_constraint self obs) g h
       = (Raise e, h')).
Proof.
  split.
  - unfold _compute_objective. split.
    + intros Hrun.
      apply bind_Raise_inv in Hrun as [?|(old_ll & h1 & Hold & Hrun)]; [by left|].
      right. exists old_ll, h1. split; [done|].
      apply bind_Raise_inv in Hrun as [?|(new_ll & h2 & Hnew & Hrun)]; [by left|].
      right. exists new_ll, h2. split; [done|].
      apply bind_Raise_inv in Hrun as [?|(diff & h3 & Hdiff & Hrun)]; [by left|].
      right. exists diff, h3. split; [done|].
      apply bind_Raise_inv in Hrun as [?|(ratio & h4 & Hratio & Hrun)]; [by left|].
      right. exists ratio, h4. split; [done|].
      by apply bind_Raise_inv in Hrun as [?|(? & ? & _ & [=])].
    + intros [Hold|(old_ll & h1 & Hold & Hrest)]; [by apply bind_Raise|].
      erewrite bind_Ok by done.
      destruct Hrest as [Hnew|(new_ll & h2 & Hnew & Hrest)]; [by apply bind_Raise|].
      erewrite bind_Ok by done.
      destruct Hrest as [Hdiff|(diff & h3 & Hdiff & Hrest)]; [by apply bind_Raise|].
      erewrite bind_Ok by done.
      destruct Hrest as [Hratio|(ratio & h4 & Hratio & Hmul)]; [by apply bind_Raise|].
      erewrite bind_Ok by done.
      by apply bind_Raise.
  - unfold _optimize. split.
    + by intros [?|(? & ? & _ & [=])]%bind_Raise_inv.
    + by apply bind_Raise.
Qed.

End Methods.

(** ** More on binding and on the constructor *)

Section BindingForms.

Variable sig : signature.
Implicit Types (args : list pyval) (kwargs locals : gmap string pyval).

Lemma bind_args_Ok_iff args kwargs locals :
  bind_args sig args kwargs = Ok locals
  ↔ dom kwargs ⊆ list_to_set (names sig)
    ∧ dom kwargs ∩ dom (positional sig args) = ∅
    ∧ length args ≤ length sig
    ∧ list_to_set (names sig) ⊆ dom (given sig args kwargs ∪ defaults sig)
    ∧ locals = given sig args kwargs ∪ defaults sig.
Proof.
  split.
  - unfold bind_args. repeat case_decide; try discriminate.
    by intros [= <-].
  - intros (? & ? & ? & ? & ->). by apply bind_args_intro.
Qed.

Lemma positional_nil : positional sig [] = ∅.
Proof. unfold positional. by destruct (names sig). Qed.

Lemma dom_positional args :
  dom (positional sig args) ⊆ (list_to_set (names sig) : gset string).
Proof.
  unfold positional. rewrite dom_list_to_map_L. intros n.
  rewrite !elem_of_list_to_set, list_elem_of_fmap.
  intros ([n' v] & -> & Hin). by apply elem_of_zip_l in Hin.
Qed.

(** A call that binds binds to the same local variables when everything it
    gave is given by keyword instead. *)
Lemma bind_args_by_keyword args kwargs locals :
  bind_args sig args kwargs = Ok locals →
  bind_args sig [] (given sig args kwargs) = Ok locals.
Proof.
  intros (Hkw & _ & _ & Hall & ->)%bind_args_Ok_iff.
  assert (given sig [] (given sig args kwargs) = given sig args kwargs) as Hsame.
  { unfold given at 1. by rewrite positional_nil, (left_id_L ∅ (∪)). }
  rewrite <- Hsame at 2. apply bind_args_intro.
  - unfold given. rewrite dom_union_L. pose proof (dom_positional args). set_solver.
  - rewrite positional_nil, dom_empty_L. set_solver.
  - simpl. lia.
  - by rewrite Hsame.
Qed.

End BindingForms.

Section ConstructorCalls.

Context {heap : Type}.
Variable VPG__init__ : pyval → gmap string pyval → M heap pyval.
Implicit Types (self : pyval) (args : list pyval).
Implicit Types (kwargs locals : gmap string pyval).

Lemma subseteq_apart (R D G : gset string) :
  R ∩ D = ∅ → R ∪ D ⊆ G ∪ D ↔ R ⊆ G.
Proof. set_solver. Qed.

Lemma init_parameters_split :
  (list_to_set (names init_signature) : gset string)
  = list_to_set (required init_signature) ∪ dom (defaults init_signature)
  ∧ list_to_set (required init_signature) ∩ dom (defaults init_signature)
    = (∅ : gset string).
Proof. split; prove_by_deciding. Qed.

(** X1: the arguments of a call bind, so that the base constructor is
    reached, exactly when every keyword is a parameter of the constructor, no
    parameter is given both by position and by keyword, at most fourteen
    arguments are given by position, and [env_spec], [policy] and [baseline]
    are all given. *)
Theorem init_binds_iff args kwargs :
  (∃ locals, bind_args init_signature args kwargs = Ok locals)
  ↔ dom kwargs ⊆ list_to_set (names init_signature)
    ∧ dom kwargs ∩ dom (positional init_signature args) = ∅
    ∧ length args ≤ 14
    ∧ ({[ "env_spec"; "policy"; "baseline" ]} : gset string)
      ⊆ dom (given init_signature args kwargs).
Proof.
  destruct init_parameters_split as [Hsplit Hdisjoint].
  assert (list_to_set (required init_signature)
          = ({[ "env_spec"; "policy"; "baseline" ]} : gset string)) as Hreq
    by prove_by_deciding.
  rewrite <- Hreq.
  assert (list_to_set (names init_signature)
            ⊆ dom (given init_signature args kwargs ∪ defaults init_signature)
          ↔ (list_to_set (required init_signature) : gset string)
            ⊆ dom (given init_signature args kwargs)) as Hall.
  { rewrite dom_union_L, Hsplit. by apply subseteq_apart. }
  split.
  - intros (locals & (? & ? & ? & ? & _)%bind_args_Ok_iff).
    split_and!; [done..|]. by apply Hall.
  - intros (? & ? & ? & ?). eexists. apply bind_args_Ok_iff.
    split_and!; [done..| |reflexivity]. by apply Hall.
Qed.

(** X2: the constructor handles no exception and returns [None]: it raises
    [e] exactly when the binding of its arguments raises [e], the heap
    untouched, or the base constructor raises [e]; it returns exactly when
    the base constructor returns, with [None] whatever that one returned. *)
Theorem init_outcome self args kwargs g h :
  (∀ e h',
     __init__ VPG__init__ self args kwargs g h = (Raise e, h')
     ↔ (bind_args init_signature args kwargs = Raise e ∧ h' = h)
       ∨ ∃ locals,
           bind_args init_signature args kwargs = Ok locals
           ∧ VPG__init__ self (super_kwargs locals) g h = (Raise e, h'))
  ∧ (∀ v h',
       __init__ VPG__init__ self args kwargs g h = (Ok v, h')
       ↔ v = PyNone
         ∧ ∃ locals r,
             bind_args init_signature args kwargs = Ok locals
             ∧ VPG__init__ self (super_kwargs locals) g h = (Ok r, h')).
Proof.
  destruct (bind_args init_signature args kwargs) as [locals|e0] eqn:Hb.
  - rewrite (init_bound _ _ _ _ _ _ _ Hb). unfold bind, ret.
    destruct (VPG__init__ self (super_kwargs locals) g h) as [[r|e1] h1] eqn:Hbase;
      split.
    + intros e h'. split; [done|]. intros [[??]|(?&?&?)]; simplify_eq; congruence.
    + intros v h'. split.
      * intros [= <- <-]. eauto.
      * intros (-> & ? & ? & ? & ?). simplify_eq. congruence.
    + intros e h'. split.
      * intros [= <- <-]. eauto.
      * intros [[??]|(?&?&?)]; simplify_eq; congruence.
    + intros v h'. split; [done|]. intros (_ & ? & ? & ? & ?). simplify_eq. congruence.
  - rewrite (init_unbound _ _ _ _ _ _ _ Hb). split.
    + intros e h'. split.
      * intros [= <- <-]. by left.
      * intros [[??]|(?&?&?)]; by simplify_eq.
    + intros v h'. split; [done|]. intros (_ & ? & ? & ? & ?). simplify_eq.
Qed.

(** X3: positional and keyword arguments are interchangeable: a call that
    binds does the same as the call that gives the same values all by
    keyword. *)
Theorem init_by_keyword self args kwargs locals g h :
  bind_args init_signature args kwargs = Ok locals →
  bind_args init_signature [] (given init_signature args kwargs) = Ok locals
  ∧ __init__ VPG__init__ self [] (given init_signature args kwargs) g h
    = __init__ VPG__init__ self args kwargs g h.
Proof.
  intros Hb. pose proof (bind_args_by_keyword _ _ _ _ Hb) as Hkw.
  split; [done|]. by rewrite !(init_bound _ _ _ _ locals).
Qed.

Lemma optimizer_descriptor_inj v w :
  optimizer_descriptor v = optimizer_descriptor w → v = w.
Proof.
  intros Heq.
  assert (∀ x, match optimizer_descriptor x with
               | PyTuple [_; PyDict d] => d !! "max_constraint_value"
               | _ => None
               end = Some x) as Hread
    by (intros x; apply lookup_singleton_eq).
  pose proof (Hread v) as Hv. rewrite Heq, Hread in Hv. by injection Hv.
Qed.

(** X4: the optimizer handed to the base constructor is determined by
    [max_kl_step] and by nothing else, and determines it: two calls pass the
    same descriptor exactly when they bind the same [max_kl_step]. *)
Theorem init_optimizer_iff_max_kl_step args1 kwargs1 locals1 args2 kwargs2 locals2 :
  bind_args init_signature args1 kwargs1 = Ok locals1 →
  bind_args init_signature args2 kwargs2 = Ok locals2 →
  super_kwargs locals1 !! "optimizer" = super_kwargs locals2 !! "optimizer"
  ↔ locals1 !! "max_kl_step" = locals2 !! "max_kl_step".
Proof.
  intros Hb1 Hb2.
  destruct (bind_args_bound _ _ _ _ "max_kl_step" Hb1) as [v1 Hv1];
    [by apply (bool_decide_unpack _); vm_compute|].
  destruct (bind_args_bound _ _ _ _ "max_kl_step" Hb2) as [v2 Hv2];
    [by apply (bool_decide_unpack _); vm_compute|].
  rewrite (super_kwargs_optimizer _ _ Hv1), (super_kwargs_optimizer _ _ Hv2).
  rewrite Hv1, Hv2. split.
  - intros Heq. f_equal. apply optimizer_descriptor_inj. congruence.
  - intros Heq. f_equal. f_equal. congruence.
Qed.

End ConstructorCalls.

(** ** More on the values of the objective *)

Section BroadcastFacts.

Import Torch.
Implicit Types (a b : scalar) (u v d : list scalar).



Lemma ssub_NaN_l b : ssub NaN b = NaN.
Proof. done. Qed.

Lemma ssub_NaN_r a : ssub a NaN = NaN.
Proof. by destruct a. Qed.

Lemma smul_NaN_l b : smul NaN b = NaN.
Proof. done. Qed.

Lemma smul_NaN_r a : smul a NaN = NaN.
Proof. by destruct a. Qed.

(** A finite ratio times a finite advantage: the product has the sign of
    the advantage. *)
Lemma smul_ratio_sign (x y z : R) :
  ∃ r, smul (sexp (ssub (Fin x) (Fin y))) (Fin z) = Fin r
       ∧ ((0 < z)%R → (0 <= r)%R) ∧ ((z < 0)%R → (r <= 0)%R).
Proof.
  eexists. split; [reflexivity|]. pose proof (exp_pos (x - y)). split; intros; nra.
Qed.

End BroadcastFacts.

Section ObjectiveValues.

Import Torch.
Context {heap policy_t optimizer_t : Type}.
Variable log_likelihood : policy_t → tensor → tensor → M heap tensor.

Implicit Types (self : trpo policy_t optimizer_t) (valids : list Z).
Implicit Types (advantages obs actions rewards : tensor).
Implicit Types (old_ll new_ll : tensor) (g : bool) (h : heap).

(** With equal sizes nothing is stretched and nothing is refused. *)
Lemma compute_objective_equal_sizes self advantages valids obs actions rewards
    g h old_ll h1 new_ll h2 :
  log_likelihood (_old_policy self) obs actions false h = (Ok old_ll, h1) →
  log_likelihood (policy self) obs actions g h1 = (Ok new_ll, h2) →
  length (data new_ll) = length (data old_ll) →
  length (data advantages) = length (data new_ll) →
  ∃ surrogate,
    _compute_objective log_likelihood self advantages valids obs actions rewards g h
    = (Ok surrogate, h2)
    ∧ data surrogate
      = zip_with smul (sexp <$> zip_with ssub (data new_ll) (data old_ll))
          (data advantages).
Proof.
  intros Hold Hnew Hll Hadv.
  rewrite (compute_objective_run _ _ _ _ _ _ _ _ _ _ _ _ _ Hold Hnew).
  unfold Torch.sub, Torch.mul, binop.
  rewrite (broadcast_same_length ssub) by done. cbn [Torch.exp data].
  rewrite (broadcast_same_length smul)
    by (by rewrite length_fmap, length_zip_with_l_eq).
  by eexists.
Qed.

Lemma surrogate_lookup (new old adv : list scalar) i x y a :
  new !! i = Some x → old !! i = Some y → adv !! i = Some a →
  zip_with smul (sexp <$> zip_with ssub new old) adv !! i
  = Some (smul (sexp (ssub x y)) a).
Proof.
  intros Hx Hy Ha.
  by rewrite lookup_zip_with, list_lookup_fmap, lookup_zip_with, Hx, Hy, Ha.
Qed.

(** X6: on a batch whose log-likelihoods and advantages have the same size
    the objective never raises, has one value per step, and the value of a
    step is computed from the advantage and the two log-likelihoods of that
    step alone. *)
Theorem compute_objective_per_step self advantages valids obs actions rewards
    g h old_ll h1 new_ll h2 :
  log_likelihood (_old_policy self) obs actions false h = (Ok old_ll, h1) →
  log_likelihood (policy self) obs actions g h1 = (Ok new_ll, h2) →
  length (data new_ll) = length (data old_ll) →
  length (data advantages) = length (data new_ll) →
  ∃ surrogate,
    _compute_objective log_likelihood self advantages valids obs actions rewards g h
    = (Ok surrogate, h2)
    ∧ length (data surrogate) = length (data advantages)
    ∧ ∀ i x y a,
        data new_ll !! i = Some x →
        data old_ll !! i = Some y →
        data advantages !! i = Some a →
        data surrogate !! i = Some (smul (sexp (ssub x y)) a).
Proof.
  intros Hold Hnew Hll Hadv.
  destruct (compute_objective_equal_sizes _ _ valids _ _ rewards _ _ _ _ _ _
              Hold Hnew Hll Hadv) as (s & Hrun & Hdata).
  exists s. split_and!; [done| |].
  - rewrite Hdata, length_zip_with_l_eq; [|by rewrite length_fmap, length_zip_with_l_eq].
    by rewrite length_fmap, length_zip_with_l_eq.
  - intros i x y a Hx Hy Ha. rewrite Hdata. by apply surrogate_lookup.
Qed.

(** X7: nothing filters NaN: on a batch of equal sizes, a NaN in the new or
    the old log-likelihood or in the advantage of a step makes the objective
    of that step NaN. *)
Theorem compute_objective_propagates_nan self advantages valids obs actions
    rewards g h old_ll h1 new_ll h2 i :
  log_likelihood (_old_policy self) obs actions false h = (Ok old_ll, h1) →
  log_likelihood (policy self) obs actions g h1 = (Ok new_ll, h2) →
  length (data new_ll) = length (data old_ll) →
  length (data advantages) = length (data new_ll) →
  i < length (data advantages) →
  data new_ll !! i = Some NaN
  ∨ data old_ll !! i = Some NaN
  ∨ data advantages !! i = Some NaN →
  ∃ surrogate,
    _compute_objective log_likelihood self advantages valids obs actions rewards g h
    = (Ok surrogate, h2)
    ∧ data surrogate !! i = Some NaN.
Proof.
  intros Hold Hnew Hll Hadv Hi Hnan.
  destruct (compute_objective_equal_sizes _ _ valids _ _ rewards _ _ _ _ _ _
              Hold Hnew Hll Hadv) as (s & Hrun & Hdata).
  exists s. split; [done|]. rewrite Hdata.
  destruct (lookup_lt_is_Some_2 (data advantages) i) as [a Ha]; [done|].
  destruct (lookup_lt_is_Some_2 (data new_ll) i) as [x Hx]; [lia|].
  destruct (lookup_lt_is_Some_2 (data old_ll) i) as [y Hy]; [lia|].
  rewrite (surrogate_lookup _ _ _ _ _ _ _ Hx Hy Ha). f_equal.
  destruct Hnan as [?|[?|?]]; simplify_eq.
  - done.
  - by rewrite ssub_NaN_r.
  - by rewrite smul_NaN_r.
Qed.

(** X8: the objective keeps the sign of the advantage: on a batch of equal
    sizes, where both log-likelihoods of a step are finite, a positive
    advantage gives a value that is not negative and a negative advantage a
    value that is not positive. *)
Theorem compute_objective_keeps_sign self advantages valids obs actions rewards
    g h old_ll h1 new_ll h2 i x y a :
  log_likelihood (_old_policy self) obs actions false h = (Ok old_ll, h1) →
  log_likelihood (policy self) obs actions g h1 = (Ok new_ll, h2) →
  length (data new_ll) = length (data old_ll) →
  length (data advantages) = length (data new_ll) →
  data new_ll !! i = Some (Fin x) →
  data old_ll !! i = Some (Fin y) →
  data advantages !! i = Some (Fin a) →
  ∃ surrogate value,
    _compute_objective log_likelihood self advantages valids obs actions rewards g h
    = (Ok surrogate, h2)
    ∧ data surrogate !! i = Some value
    ∧ ((0 < a)%R → nonneg value)
    ∧ ((a < 0)%R → nonpos value).
Proof.
  intros Hold Hnew Hll Hadv Hx Hy Ha.
  destruct (compute_objective_equal_sizes _ _ valids _ _ rewards _ _ _ _ _ _
              Hold Hnew Hll Hadv) as (s & Hrun & Hdata).
  destruct (smul_ratio_sign x y a) as (r & Hr & Hpos & Hneg).
  exists s, (Fin r). split_and!; [done| |done..].
  by rewrite Hdata, (surrogate_lookup _ _ _ _ _ _ _ Hx Hy Ha), Hr.
Qed.


(** X5: the objective has no effect of its own on the heap: if the
    log-likelihood of the policies leaves the heap as it found it, so does
    the objective, whether it returns or raises. *)
Theorem compute_objective_preserves_heap self advantages valids obs actions
    rewards g h outcome h' :
  (∀ p o a g0 h0 r h1, log_likelihood p o a g0 h0 = (r, h1) → h1 = h0) →
  _compute_objective log_likelihood self advantages valids obs actions rewards g h
  = (outcome, h') →
  h' = h.
Proof.
  intros Hframe. unfold _compute_objective, bind, no_grad.
  destruct (log_likelihood (_old_policy self) obs actions false h)
    as [[old_ll|e] h1] eqn:Hold; apply Hframe in Hold as ->; [|congruence].
  destruct (log_likelihood (policy self) obs actions g h)
    as [[new_ll|e] h2] eqn:Hnew; apply Hframe in Hnew as ->; [|congruence].
  unfold tensor_sub, tensor_exp, tensor_mul, ret.
  destruct (Torch.sub g new_ll old_ll); [|congruence].
  cbn [Torch.exp]. destruct (Torch.mul _ _ _); congruence.
Qed.

(** X10: called with tracking disabled, as for an evaluation, the objective
    that comes back is attached to no parameter, whatever the policies
    return. *)
Theorem compute_objective_detached_under_no_grad self advantages valids obs
    actions rewards h surrogate h' :
  _compute_objective log_likelihood self advantages valids obs actions rewards
    false h
  = (Ok surrogate, h') →
  tracked surrogate = ∅.
Proof.
  intros Hrun. unfold _compute_objective in Hrun.
  apply bind_Ok_inv in Hrun as (old_ll & h1 & _ & Hrun).
  apply bind_Ok_inv in Hrun as (new_ll & h2 & _ & Hrun).
  apply bind_Ok_inv in Hrun as (diff & h3 & _ & Hrun).
  apply bind_Ok_inv in Hrun as (ratio & h4 & _ & Hrun).
  apply bind_Ok_inv in Hrun as (s & h5 & Hmul & Hret).
  injection Hret as -> ->.
  by apply tensor_mul_Ok in Hmul as (_ & _ & ->).
Qed.

(** X11: the values of the objective do not depend on the autograd mode: if
    the log-likelihood of the policies gives the same values (or the same
    exception) and the same heap with tracking on and off, so does the
    objective. *)
Theorem compute_objective_values_mode_free self advantages valids obs actions
    rewards h :
  (∀ p o a h0,
     same_values (log_likelihood p o a true h0).1 (log_likelihood p o a false h0).1
     ∧ (log_likelihood p o a true h0).2 = (log_likelihood p o a false h0).2) →
  same_values
    (_compute_objective log_likelihood self advantages valids obs actions rewards
       true h).1
    (_compute_objective log_likelihood self advantages valids obs actions rewards
       false h).1
  ∧ (_compute_objective log_likelihood self advantages valids obs actions rewards
       true h).2
    = (_compute_objective log_likelihood self advantages valids obs actions rewards
         false h).2.
Proof.
  intros Hmode. unfold _compute_objective, bind, no_grad.
  destruct (log_likelihood (_old_policy self) obs actions false h)
    as [[old_ll|e] h1]; [|done].
  specialize (Hmode (policy self) obs actions h1).
  destruct (log_likelihood (policy self) obs actions true h1) as [[new1|e1] k1],
    (log_likelihood (policy self) obs actions false h1) as [[new2|e2] k2];
    cbn in Hmode; destruct Hmode as [Hval <-]; try done.
  unfold tensor_sub, tensor_exp, tensor_mul, ret, Torch.sub, Torch.mul, binop.
  rewrite Hval.
  destruct (broadcast ssub (data new2) (data old_ll)) as [diff|]; [|done].
  cbn [Torch.exp data].
  by destruct (broadcast smul (sexp <$> diff) (data advantages)).
Qed.

End ObjectiveValues.

(** ** More on the optimisation step *)

Section StepClosures.

Context {heap policy_t optimizer_t paths_t : Type}.
Variable optimizer_step :
  optimizer_t → (unit → M heap tensor) → (unit → M heap tensor) → M heap pyval.

Implicit Types (self : trpo policy_t optimizer_t) (valids : list Z).
Implicit Types (obs actions rewards baselines : tensor).

(** X12: the step evaluates neither the loss nor the constraint itself, it
    only hands them on: with an optimizer that does not call its closures the
    outcome is the same whatever [compute_loss] and [_compute_kl_constraint]
    would do and whatever the batch is. *)
Theorem optimize_leaves_evaluation_to_optimizer
    (compute_loss compute_loss' :
       trpo policy_t optimizer_t → Z → paths_t → list Z →
       tensor → tensor → tensor → tensor → M heap tensor)
    (_compute_kl_constraint _compute_kl_constraint' :
       trpo policy_t optimizer_t → tensor → M heap tensor)
    self itr itr' paths paths' valids valids' obs obs' actions actions'
    rewards rewards' baselines baselines' :
  (∀ o f_loss f_constraint f_loss' f_constraint',
     optimizer_step o f_loss f_constraint = optimizer_step o f_loss' f_constraint') →
  _optimize optimizer_step compute_loss _compute_kl_constraint
    self itr paths valids obs actions rewards baselines
  = _optimize optimizer_step compute_loss' _compute_kl_constraint'
      self itr' paths' valids' obs' actions' rewards' baselines'.
Proof.
  intros Hidle. unfold _optimize. f_equal. apply Hidle.
Qed.

End StepClosures.

(** ** Worked instances *)

Section Instances.

Import Torch.

(** One step of the toy optimizer is one update: the heap counter moves
    from 0 to 1 and the method returns [None]. *)
Example optimize_counts_one_update :
  _optimize Toy.step Toy.compute_loss Toy._compute_kl_constraint Toy.trainer
    7 () [2%Z] Toy.obs Toy.actions Toy.rewards Toy.rewards true 0
  = (Ok PyNone, 1).
Proof. reflexivity. Qed.

(** The keyword [optimizer] is not a parameter of the constructor: the call
    fails before the base constructor runs. *)
Example optimizer_keyword_is_refused :
  __init__ Toy.VPG__init__ (PyRef 4) Toy.call_args {[ "optimizer" := PyNone ]} true 0
  = (Raise (TypeError "got an unexpected keyword argument"), 0).
Proof. vm_compute. reflexivity. Qed.

(** An argument given both by position and by keyword, a missing required
    argument and a fifteenth positional argument are refused as well. *)
Example binding_failures :
  bind_args init_signature Toy.call_args {[ "policy" := PyNone ]}
  = Raise (TypeError "got multiple values for argument")
  ∧ bind_args init_signature [PyRef 1] {[ "policy" := PyRef 2 ]}
    = Raise (TypeError "missing required positional argument")
  ∧ bind_args init_signature (replicate 15 PyNone) ∅
    = Raise (TypeError "too many positional arguments").
Proof. split_and!; vm_compute; reflexivity. Qed.

(** [max_kl_step] is the eleventh parameter: given by position it reaches
    the optimizer descriptor just as well. *)
Example max_kl_step_by_position :
  ∃ locals,
    bind_args init_signature
      (Toy.call_args ++ replicate 7 PyNone ++ [PyFloat 0.05%float]) ∅
    = Ok locals
    ∧ super_kwargs locals !! "optimizer"
      = Some (optimizer_descriptor (PyFloat 0.05%float)).
Proof.
  eexists. split; [apply bind_args_intro; prove_by_deciding|].
  vm_compute. reflexivity.
Qed.

(** Left out, [max_kl_step] is 0.01 in the descriptor. *)
Example max_kl_step_by_default :
  bind_args init_signature Toy.call_args ∅ = Ok Toy.plain_locals
  ∧ super_kwargs Toy.plain_locals !! "optimizer"
    = Some (optimizer_descriptor (PyFloat 0.01%float)).
Proof.
  split; [apply bind_args_intro; prove_by_deciding|].
  vm_compute. reflexivity.
Qed.

Lemma compute_objective_is_surrogate_witness :
  ∃ surrogate,
    _compute_objective Toy.log_likelihood Toy.trainer Toy.advantages [2%Z]
      Toy.obs Toy.actions Toy.rewards true 0
    = (Ok surrogate, 0)
    ∧ data surrogate
      = [ smul (Fin 2) (sexp (ssub (Fin (-1)) (Fin (-1))));
          smul (Fin 3) (sexp (ssub (Fin (-2)) (Fin (-3)))) ].
Proof.
  exact (compute_objective_is_surrogate Toy.log_likelihood Toy.trainer
           Toy.advantages [2%Z] Toy.obs Toy.actions Toy.rewards true 0
           _ 0 _ 0 eq_refl eq_refl).
Defined.

(** C2 as stated fails.  First, a policy that gives the action probability
    zero: old and new log-likelihood are both minus infinity, their
    difference is NaN and so is the objective, whatever the advantage.
    Second, identical finite log-likelihoods of two steps against a single
    advantage: the ratio is stretched over it and the objective has two
    values where the advantages have one. *)
Lemma identical_likelihoods_counterexample :
  (∃ old_ll new_ll surrogate,
     Toy.log_likelihood (_old_policy Toy.stuck_trainer)
       (Toy.vec [Fin 0]) (Toy.vec [Fin 1]) false 0 = (Ok old_ll, 0)
     ∧ Toy.log_likelihood (policy Toy.stuck_trainer)
         (Toy.vec [Fin 0]) (Toy.vec [Fin 1]) true 0 = (Ok new_ll, 0)
     ∧ data new_ll = data old_ll
     ∧ _compute_objective Toy.log_likelihood Toy.stuck_trainer (Toy.vec [Fin 2])
         [1%Z] (Toy.vec [Fin 0]) (Toy.vec [Fin 1]) (Toy.vec [Fin 1]) true 0
       = (Ok surrogate, 0)
     ∧ data surrogate = [NaN]
     ∧ data surrogate ≠ data (Toy.vec [Fin 2]))
  ∧ (∃ old_ll new_ll surrogate,
       Toy.log_likelihood (_old_policy Toy.fresh_trainer)
         Toy.obs Toy.actions false 0 = (Ok old_ll, 0)
       ∧ Toy.log_likelihood (policy Toy.fresh_trainer)
           Toy.obs Toy.actions true 0 = (Ok new_ll, 0)
       ∧ data new_ll = data old_ll
       ∧ Forall (λ x, is_finite x) (data new_ll)
       ∧ _compute_objective Toy.log_likelihood Toy.fresh_trainer (Toy.vec [Fin 2])
           [2%Z] Toy.obs Toy.actions Toy.rewards true 0
         = (Ok surrogate, 0)
       ∧ length (data surrogate) = 2
       ∧ data surrogate ≠ data (Toy.vec [Fin 2])).
Proof.
  split.
  - eexists _, _, _. split_and!; try reflexivity. done.
  - eexists _, _, _. split_and!; try reflexivity; [by repeat constructor | done].
Qed.

Lemma identical_likelihoods_give_advantages_witness :
  ∃ surrogate,
    _compute_objective Toy.log_likelihood Toy.fresh_trainer Toy.advantages [2%Z]
      Toy.obs Toy.actions Toy.rewards true 0
    = (Ok surrogate, 0)
    ∧ data surrogate = [Fin 2; Fin 3].
Proof.
  destruct (identical_likelihoods_give_advantages Toy.log_likelihood
              Toy.fresh_trainer Toy.advantages [2%Z] Toy.obs Toy.actions
              Toy.rewards true 0 _ 0 _ 0 eq_refl eq_refl eq_refl
              ltac:(repeat constructor) eq_refl)
    as (_ & _ & surrogate & _ & _ & _ & Hrun & Hdata).
  exists surrogate. split; [exact Hrun | exact Hdata].
Defined.

Lemma init_configures_optimizer_witness :
  super_kwargs Toy.call_locals !! "optimizer"
  = Some (PyTuple [ PyClass "ConjugateGradientOptimizer";
                    PyDict {[ "max_constraint_value" := PyFloat 0.05%float ]} ])
  ∧ ∀ g h, __init__ Toy.VPG__init__ (PyRef 4) Toy.call_args Toy.call_kwargs g h
           = (_ <- Toy.VPG__init__ (PyRef 4) (super_kwargs Toy.call_locals) ;;
              ret PyNone) g h.
Proof.
  apply (init_configures_optimizer Toy.VPG__init__ (PyRef 4) Toy.call_args
           Toy.call_kwargs Toy.call_locals (PyFloat 0.05%float)).
  - apply bind_args_intro; prove_by_deciding.
  - vm_compute. reflexivity.
Defined.

Lemma compute_objective_valids_order_witness :
  _compute_objective Toy.log_likelihood Toy.trainer Toy.advantages [3%Z; 5%Z]
    Toy.obs Toy.actions Toy.rewards
  = _compute_objective Toy.log_likelihood Toy.trainer Toy.advantages [5%Z; 3%Z]
      Toy.obs Toy.actions Toy.rewards.
Proof.
  apply compute_objective_valids_order. apply perm_swap.
Defined.

Lemma compute_objective_gradient_flow_witness :
  ∃ surrogate,
    _compute_objective Toy.log_likelihood Toy.trainer Toy.advantages [2%Z]
      Toy.obs Toy.actions Toy.rewards true 0
    = (Ok surrogate, 0)
    ∧ ∃ old_ll h1 new_ll,
        Toy.log_likelihood (_old_policy Toy.trainer) Toy.obs Toy.actions false 0
        = (Ok old_ll, h1)
        ∧ tracked old_ll = ∅
        ∧ Toy.log_likelihood (policy Toy.trainer) Toy.obs Toy.actions true h1
          = (Ok new_ll, 0)
        ∧ tracked surrogate = tracked new_ll ∪ tracked Toy.advantages.
Proof.
  eexists. split; [reflexivity|].
  apply (compute_objective_gradient_flow Toy.log_likelihood Toy.trainer
           Toy.advantages [2%Z] Toy.obs Toy.actions Toy.rewards 0).
  - intros p o a h0 r h1 [= <- _]. reflexivity.
  - reflexivity.
Defined.

Lemma init_defaults_witness :
  Forall (λ '(n, d), Toy.plain_locals !! n = Some d)
    [ ("max_path_length", PyInt 100);
      ("num_train_per_epoch", PyInt 1);
      ("discount", PyFloat 0.99%float);
      ("gae_lambda", PyFloat 0.98%float);
      ("center_adv", PyBool true);
      ("positive_adv", PyBool false);
      ("policy_ent_coeff", PyFloat 0.0%float);
      ("max_kl_step", PyFloat 0.01%float);
      ("use_softplus_entropy", PyBool false);
      ("stop_entropy_gradient", PyBool false);
      ("entropy_method", PyStr "no_entropy") ].
Proof.
  apply (init_defaults Toy.call_args ∅ Toy.plain_locals).
  - apply bind_args_intro; prove_by_deciding.
  - prove_by_deciding.
Defined.

End Instances.

(** ** More worked instances *)

Section MoreInstances.

Import Torch.

(** The failing loss is harmless under the optimizer that does not call its
    closures, and reaches the caller under the one that does. *)
Example optimize_failing_loss :
  _optimize Toy.idle_step Toy.failing_loss Toy._compute_kl_constraint Toy.trainer
    7 () [2%Z] Toy.obs Toy.actions Toy.rewards Toy.rewards true 0
  = (Ok PyNone, 1)
  ∧ _optimize Toy.step Toy.failing_loss Toy._compute_kl_constraint Toy.trainer
      7 () [2%Z] Toy.obs Toy.actions Toy.rewards Toy.rewards true 0
    = (Raise (Exn "ValueError" "loss"), 0).
Proof. split; reflexivity. Qed.

Lemma init_by_keyword_witness :
  bind_args init_signature [] (given init_signature Toy.call_args Toy.call_kwargs)
  = Ok Toy.call_locals
  ∧ __init__ Toy.VPG__init__ (PyRef 4) []
      (given init_signature Toy.call_args Toy.call_kwargs) true 0
    = __init__ Toy.VPG__init__ (PyRef 4) Toy.call_args Toy.call_kwargs true 0.
Proof.
  apply (init_by_keyword Toy.VPG__init__ (PyRef 4) Toy.call_args Toy.call_kwargs
           Toy.call_locals true 0).
  apply bind_args_intro; prove_by_deciding.
Defined.

Lemma init_optimizer_iff_max_kl_step_witness :
  super_kwargs Toy.call_locals !! "optimizer"
  = super_kwargs Toy.plain_locals !! "optimizer"
  ↔ Toy.call_locals !! "max_kl_step" = Toy.plain_locals !! "max_kl_step".
Proof.
  apply (init_optimizer_iff_max_kl_step Toy.call_args Toy.call_kwargs
           Toy.call_locals Toy.call_args ∅ Toy.plain_locals);
    apply bind_args_intro; prove_by_deciding.
Defined.

Lemma compute_objective_preserves_heap_witness :
  (_compute_objective Toy.log_likelihood Toy.trainer Toy.advantages [2%Z]
     Toy.obs Toy.actions Toy.rewards true 5).2 = 5.
Proof.
  eapply (compute_objective_preserves_heap Toy.log_likelihood Toy.trainer
            Toy.advantages [2%Z] Toy.obs Toy.actions Toy.rewards true 5).
  - intros p o a g0 h0 r h1 [= _ <-]. reflexivity.
  - apply surjective_pairing.
Defined.

Lemma compute_objective_per_step_witness :
  ∃ surrogate,
    _compute_objective Toy.log_likelihood Toy.trainer Toy.advantages [2%Z]
      Toy.obs Toy.actions Toy.rewards true 0
    = (Ok surrogate, 0)
    ∧ length (data surrogate) = 2
    ∧ data surrogate !! 1 = Some (smul (sexp (ssub (Fin (-2)) (Fin (-3)))) (Fin 3)).
Proof.
  destruct (compute_objective_per_step Toy.log_likelihood Toy.trainer
              Toy.advantages [2%Z] Toy.obs Toy.actions Toy.rewards true 0
              _ 0 _ 0 eq_refl eq_refl eq_refl eq_refl)
    as (surrogate & Hrun & Hlen & Hstep).
  exists surrogate. split; [exact Hrun|]. split; [exact Hlen|].
  apply (Hstep 1); reflexivity.
Defined.

Lemma compute_objective_propagates_nan_witness :
  ∃ surrogate,
    _compute_objective Toy.log_likelihood Toy.broken_trainer Toy.advantages [2%Z]
      Toy.obs Toy.actions Toy.rewards true 0
    = (Ok surrogate, 0)
    ∧ data surrogate !! 1 = Some NaN.
Proof.
  apply (compute_objective_propagates_nan Toy.log_likelihood Toy.broken_trainer
           Toy.advantages [2%Z] Toy.obs Toy.actions Toy.rewards true 0
           _ 0 _ 0 1 eq_refl eq_refl eq_refl eq_refl).
  - simpl. lia.
  - left. reflexivity.
Defined.

Lemma compute_objective_keeps_sign_witness :
  ∃ surrogate value,
    _compute_objective Toy.log_likelihood Toy.trainer Toy.advantages [2%Z]
      Toy.obs Toy.actions Toy.rewards true 0
    = (Ok surrogate, 0)
    ∧ data surrogate !! 0 = Some value
    ∧ nonneg value.
Proof.
  destruct (compute_objective_keeps_sign Toy.log_likelihood Toy.trainer
              Toy.advantages [2%Z] Toy.obs Toy.actions Toy.rewards true 0
              _ 0 _ 0 0 (-1)%R (-1)%R 2%R
              eq_refl eq_refl eq_refl eq_refl eq_refl eq_refl eq_refl)
    as (surrogate & value & Hrun & Hvalue & Hpos & _).
  exists surrogate, value. split; [exact Hrun|]. split; [exact Hvalue|].
  apply Hpos. lra.
Defined.


Lemma compute_objective_detached_under_no_grad_witness :
  ∃ surrogate,
    _compute_objective Toy.log_likelihood Toy.trainer Toy.advantages [2%Z]
      Toy.obs Toy.actions Toy.rewards false 0
    = (Ok surrogate, 0)
    ∧ tracked surrogate = ∅.
Proof.
  eexists. split; [reflexivity|].
  apply (compute_objective_detached_under_no_grad Toy.log_likelihood Toy.trainer
           Toy.advantages [2%Z] Toy.obs Toy.actions Toy.rewards 0 _ 0).
  reflexivity.
Defined.

Lemma compute_objective_values_mode_free_witness :
  same_values
    (_compute_objective Toy.log_likelihood Toy.trainer Toy.advantages [2%Z]
       Toy.obs Toy.actions Toy.rewards true 0).1
    (_compute_objective Toy.log_likelihood Toy.trainer Toy.advantages [2%Z]
       Toy.obs Toy.actions Toy.rewards false 0).1
  ∧ (_compute_objective Toy.log_likelihood Toy.trainer Toy.advantages [2%Z]
       Toy.obs Toy.actions Toy.rewards true 0).2
    = (_compute_objective Toy.log_likelihood Toy.trainer Toy.advantages [2%Z]
         Toy.obs Toy.actions Toy.rewards false 0).2.
Proof.
  apply (compute_objective_values_mode_free Toy.log_likelihood).
  intros p o a h0. split; reflexivity.
Defined.

Lemma optimize_leaves_evaluation_to_optimizer_witness :
  _optimize Toy.idle_step Toy.compute_loss Toy._compute_kl_constraint Toy.trainer
    7 () [2%Z] Toy.obs Toy.actions Toy.rewards Toy.rewards
  = _optimize Toy.idle_step Toy.failing_loss Toy._compute_kl_constraint
      Toy.trainer 8 () [1%Z; 1%Z] Toy.actions Toy.obs Toy.rewards Toy.obs.
Proof.
  apply (optimize_leaves_evaluation_to_optimizer Toy.idle_step).
  intros. reflexivity.
Defined.

End MoreInstances.
